(** * Evolution generation pipeline: a shallow embedding of [EvolutionGenerator]

    The notebook [app_SDG_from_scratch_simplified.ipynb] defines one class,
    [EvolutionGenerator], whose methods chunk a document, ask a text model for
    one question per chunk, ask it for three rewrites of every question and ask
    it once more to judge every rewrite.  This file embeds those methods as
    Rocq functions and proves properties of them.

    Modelling choices.
    - A Python [str] is a Rocq [string]; a character stands for the code point
      of the same number, so the model covers the code points 0..255.
    - A Python [int] is a [Z].
    - A value that is a [str] or [None] is an [option string].
    - The text model behind [gpt] is any function of the prompts sent so far
      and of the current prompt.  The list of prompts sent so far is the only
      state of the program; it also counts the calls.  The calls of one run
      have histories of different lengths, so every run, whatever the text
      model replies, is the run of one such function.
    - A Python exception is the [Raise] case of [result].
    - [print] is left out: standard output is read by no method. *)

From Stdlib Require Import String Ascii List ZArith Lia Bool Arith.
Import ListNotations.

Local Open Scope string_scope.
Local Open Scope list_scope.

(** ** Python strings *)

Module PyStr.

(** [str.isspace] on one character, for the code points below 256: the
    controls 9..13 and 28..31, the space, NEL (133) and the no-break space
    (160). *)
Definition isspace (c : ascii) : bool :=
  let n := nat_of_ascii c in
  (((9 <=? n) && (n <=? 13)) || ((28 <=? n) && (n <=? 32))
   || (n =? 133) || (n =? 160))%nat.

(** Truth value of a [str]: the empty string is false. *)
Definition nonempty (s : string) : bool :=
  match s with
  | EmptyString => false
  | String _ _ => true
  end.

(** [s.lstrip()], [s.rstrip()] and [s.strip()] without argument. *)
Fixpoint lstrip (s : string) : string :=
  match s with
  | EmptyString => EmptyString
  | String c s' => if isspace c then lstrip s' else s
  end.

Fixpoint rstrip (s : string) : string :=
  match s with
  | EmptyString => EmptyString
  | String c s' =>
      let r := rstrip s' in
      if isspace c && negb (nonempty r) then EmptyString else String c r
  end.

Definition strip (s : string) : string := rstrip (lstrip s).

(** [s.upper()], one character at a time.  Lower-case ASCII and Latin-1
    letters move down by 32 and the sharp s (223) becomes two letters.  The
    micro sign (181) and the y with diaeresis (255) have upper-case forms
    above 255, which no character of the model can hold; they are left as
    they are, and stay different from every ASCII letter either way. *)
Definition upper_char (c : ascii) : string :=
  let n := nat_of_ascii c in
  if ((97 <=? n) && (n <=? 122))%nat
  then String (ascii_of_nat (n - 32)) EmptyString
  else if (n =? 223)%nat then "SS"
  else if ((224 <=? n) && (n <=? 254) && negb (n =? 247))%nat
       then String (ascii_of_nat (n - 32)) EmptyString
  else String c EmptyString.

Fixpoint upper (s : string) : string :=
  match s with
  | EmptyString => EmptyString
  | String c s' => upper_char c ++ upper s'
  end.

(** [s.split()] without argument: the maximal runs of characters that are
    not white space, in order.  [cur] is the run being read. *)
Fixpoint split_from (cur : string) (s : string) : list string :=
  match s with
  | EmptyString => if nonempty cur then [cur] else []
  | String c s' =>
      if isspace c
      then (if nonempty cur then cur :: split_from EmptyString s'
            else split_from EmptyString s')
      else split_from (cur ++ String c EmptyString) s'
  end.

Definition split (s : string) : list string := split_from EmptyString s.

(** [sep.join(ws)]. *)
Fixpoint join (sep : string) (ws : list string) : string :=
  match ws with
  | [] => EmptyString
  | [w] => w
  | w :: ws' => w ++ sep ++ join sep ws'
  end.

(** A word: not empty, no white space inside. *)
Definition no_space (w : string) : Prop :=
  forall c, In c (list_ascii_of_string w) -> isspace c = false.

Definition is_word (w : string) : Prop := w <> EmptyString /\ no_space w.


End PyStr.

(** ** Python lists and ranges *)

Module PyList.

(** Normalisation of one slice bound against a length, as [l[lo:hi]] does:
    a negative bound counts from the end, and the result is clamped. *)
Definition clamp (len : nat) (i : Z) : nat :=
  let n := Z.of_nat len in
  if (i <? 0)%Z then Z.to_nat (Z.max 0 (i + n)) else Z.to_nat (Z.min i n).

(** [l[lo:hi]]. *)
Definition slice {A : Type} (l : list A) (lo hi : Z) : list A :=
  let a := clamp (length l) lo in
  let b := clamp (length l) hi in
  firstn (b - a) (skipn a l).

(** Number of elements of [range(start, stop, step)] for a step that is not
    zero. *)
Definition range_len (start stop step : Z) : nat :=
  if (0 <? step)%Z
  then (if (start <? stop)%Z
        then Z.to_nat ((stop - start - 1) / step + 1) else 0)
  else (if (stop <? start)%Z
        then Z.to_nat ((start - stop - 1) / (- step) + 1) else 0).

End PyList.

(** ** Exceptions and the state of a run *)

Inductive exn : Type :=
| AttributeError   (* a method looked up on [None] *)
| ValueError.      (* [range] called with step zero *)

Inductive result (A : Type) : Type :=
| Ok (a : A)
| Raise (e : exn).

Arguments Ok {A} a.
Arguments Raise {A} e.

Definition rbind {A B : Type} (r : result A) (k : A -> result B) : result B :=
  match r with
  | Ok a => k a
  | Raise e => Raise e
  end.

(** [range(start, stop, step)], as the list of its elements. *)
Definition range (start stop step : Z) : result (list Z) :=
  if (step =? 0)%Z then Raise ValueError
  else Ok (map (fun k => (start + Z.of_nat k * step)%Z)
               (seq 0 (PyList.range_len start stop step))).

(** The prompts sent to the text model so far, oldest first. *)
Definition history : Type := list string.

(** A computation that may call the text model and may raise. *)
Definition M (A : Type) : Type := history -> result A * history.

Definition ret {A : Type} (a : A) : M A := fun h => (Ok a, h).

Definition raise {A : Type} (e : exn) : M A := fun h => (Raise e, h).

Definition bind {A B : Type} (m : M A) (k : A -> M B) : M B :=
  fun h =>
    match m h with
    | (Ok a, h') => k a h'
    | (Raise e, h') => (Raise e, h')
    end.

Definition lift {A : Type} (r : result A) : M A := fun h => (r, h).

Declare Scope py_scope.
Delimit Scope py_scope with py.
Notation "x <- m ;; k" := (bind m (fun x => k))
  (at level 61, m at next level, right associativity) : py_scope.
Notation "' pat <- m ;; k" := (bind m (fun x => match x with pat => k end))
  (at level 61, pat pattern, m at next level, right associativity) : py_scope.

(** [for x in xs: acc = body x acc], the loops of the class all have this
    shape: the loop variable runs over a list and the body appends to one
    local list. *)
Fixpoint for_each {A S : Type} (body : A -> S -> M S) (xs : list A) (acc : S)
  : M S :=
  match xs with
  | [] => ret acc
  | x :: xs' => bind (body x acc) (for_each body xs')
  end.

(** Truth value of a value that is a string or [None]. *)
Definition truthy (v : option string) : bool :=
  match v with
  | Some s => PyStr.nonempty s
  | None => false
  end.

(** [v.strip()] on a value that is a string or [None]: [None] has no such
    method. *)
Definition py_strip (v : option string) : result string :=
  match v with
  | Some s => Ok (PyStr.strip s)
  | None => Raise AttributeError
  end.

(** ** The class [EvolutionGenerator] *)

Local Open Scope py_scope.

(** The line feed and the double quote of the prompt templates. *)
Definition nl : string := String (ascii_of_nat 10) EmptyString.
Definition dq : string := String (ascii_of_nat 34) EmptyString.
Definition indent : string := "        ".

(** The f-strings of the four kinds of prompt. *)
Definition simple_prompt (chunk : string) : string :=
  "Generate a simple factual question based on the following text:"
  ++ nl ++ nl ++ chunk.

Definition complexity_prompt (question : string) : string :=
  "Transform the following simple question into a more complex reasoning question that requires multi-step logic or inference:"
  ++ nl ++ nl ++ question.

Definition compression_prompt (question : string) : string :=
  "Rewrite the following question to be more concise, while retaining the original meaning:"
  ++ nl ++ nl ++ question.

Definition rephrasing_prompt (question : string) : string :=
  "Rephrase the following question in a different way to ask the same information:"
  ++ nl ++ nl ++ question.

Definition critic_prompt (original_question evolved_question : string)
  : string :=
  nl
  ++ indent ++ "Evaluate the following evolved question to determine if it is sufficiently different from the original question while conveying the same meaning." ++ nl
  ++ indent ++ "Original Question: " ++ dq ++ original_question ++ dq ++ nl
  ++ indent ++ "Evolved Question: " ++ dq ++ evolved_question ++ dq ++ nl
  ++ nl
  ++ indent ++ "Answer " ++ dq ++ "VALID" ++ dq ++ " if the evolved question meets both criteria. Answer " ++ dq ++ "INVALID" ++ dq ++ " if it fails either criterion." ++ nl
  ++ indent.

(** Step 1, [chunk_document]: no call of the text model, so a plain
    [result].  The comprehension maps the body over the range. *)
Definition chunk_document (doc : string) (chunk_size : Z)
  : result (list string) :=
  let words := PyStr.split doc in
  rbind (range 0 (Z.of_nat (length words)) chunk_size) (fun starts =>
  Ok (map (fun i => PyStr.join " " (PyList.slice words i (i + chunk_size)))
          starts)).

(** The default value of the parameter [chunk_size]. *)
Definition default_chunk_size : Z := 100.

Section Generator.

(** The text model: the reply, or [None], to a prompt after the prompts of
    [h].  [None] stands for the exception that [gpt] catches and for a reply
    without content. *)
Variable port : history -> string -> option string.

Definition gpt (prompt : string) : M (option string) :=
  fun h => (Ok (port h prompt), h ++ [prompt]).

(** Step 2, [generate_simple_questions]. *)
Definition generate_simple_questions (chunks : list string)
  : M (list string) :=
  for_each
    (fun chunk questions =>
       let prompt := simple_prompt chunk in
       question <- gpt prompt ;;
       if truthy question
       then (s <- lift (py_strip question) ;; ret (questions ++ [s]))
       else ret questions)
    chunks [].

(** One of the three blocks of [apply_evolutions]: a call and a guarded
    append. *)
Definition evolve_with (prompt : string) (evolutions : list string)
  : M (list string) :=
  evolved <- gpt prompt ;;
  if truthy evolved
  then (s <- lift (py_strip evolved) ;; ret (evolutions ++ [s]))
  else ret evolutions.

(** Step 3, [apply_evolutions]. *)
Definition apply_evolutions (question : string) : M (list string) :=
  let evolutions := [] in
  let complexity_prompt := complexity_prompt question in
  evolutions <- evolve_with complexity_prompt evolutions ;;
  let compression_prompt := compression_prompt question in
  evolutions <- evolve_with compression_prompt evolutions ;;
  let rephrasing_prompt := rephrasing_prompt question in
  evolutions <- evolve_with rephrasing_prompt evolutions ;;
  ret evolutions.

(** Step 4, [critic]: no test of [result] before [strip]. *)
Definition critic (original_question evolved_question : string) : M bool :=
  let critic_prompt := critic_prompt original_question evolved_question in
  result <- gpt critic_prompt ;;
  s <- lift (py_strip result) ;;
  ret (PyStr.upper s =? "VALID")%string.

(** [generate_evolved_questions]. *)
Definition generate_evolved_questions (questions : list string)
  : M (list (string * list string)) :=
  for_each
    (fun question all_evolved_questions =>
       evolved_questions <- apply_evolutions question ;;
       ret (all_evolved_questions ++ [(question, evolved_questions)]))
    questions [].

(** [validate_evolved_questions]. *)
Definition validate_evolved_questions
    (evolved_questions : list (string * list string)) : M (list string) :=
  for_each
    (fun '(original_question, evolutions) valid_evolved_questions =>
       for_each
         (fun evolved_question valid_evolved_questions =>
            is_valid <- critic original_question evolved_question ;;
            if is_valid
            then ret (valid_evolved_questions ++ [evolved_question])
            else ret valid_evolved_questions)
         evolutions valid_evolved_questions)
    evolved_questions [].

(** The code cells below the class, run top to bottom on a document: steps
    1 to 4, each on the value of the step before.  The cell of step 1 calls
    [chunk_document] with the default chunk size; here the size is an
    argument. *)
Definition run_cells (document : string) (chunk_size : Z) : M (list string) :=
  chunks <- lift (chunk_document document chunk_size) ;;
  simple_questions <- generate_simple_questions chunks ;;
  evolved_questions <- generate_evolved_questions simple_questions ;;
  validate_evolved_questions evolved_questions.

End Generator.

(** A text model that fails on every call. *)
Definition failing_port : history -> string -> option string :=
  fun _ _ => None.

(** A text model with one fixed reply. *)
Definition constant_port (r : option string)
  : history -> string -> option string :=
  fun _ _ => r.

(** ** Vocabulary of the properties *)

(** The three prompts sent for one question, in the order of the code:
    complexity, compression, rephrasing. *)
Definition evolution_prompts (question : string) : list string :=
  [complexity_prompt question; compression_prompt question;
   rephrasing_prompt question].

(** What one reply of the text model adds to a list of questions: nothing
    for [None] and for the empty string, the stripped reply otherwise. *)
Definition contribution (reply : option string) : list string :=
  match reply with
  | Some s => if PyStr.nonempty s then [PyStr.strip s] else []
  | None => []
  end.

(** The verdict read from a reply that is a string. *)
Definition verdict (reply : string) : bool :=
  (PyStr.upper (PyStr.strip reply) =? "VALID")%string.

(** Quotient rounded up, for a positive divisor. *)
Definition ceil_div (n w : Z) : Z := ((n + w - 1) / w)%Z.

(** The (original question, evolved question) pairs of the argument of
    [validate_evolved_questions], in the order the loops visit them. *)
Definition candidates_of (evolved : list (string * list string))
  : list (string * string) :=
  flat_map (fun '(q, evolutions) => map (pair q) evolutions) evolved.

Definition critic_prompt_of (c : string * string) : string :=
  critic_prompt (fst c) (snd c).

Section Traces.

Variable port : history -> string -> option string.

(** The candidates that [apply_evolutions] derives from [q] when it starts
    after the prompts of [h]: one contribution per policy. *)
Definition evolutions_after (h : history) (q : string) : list string :=
  contribution (port h (complexity_prompt q))
  ++ contribution (port (h ++ [complexity_prompt q]) (compression_prompt q))
  ++ contribution (port (h ++ [complexity_prompt q; compression_prompt q])
                        (rephrasing_prompt q)).

(** The questions that [generate_simple_questions] derives from [chunks]
    when it starts after the prompts of [h]. *)
Fixpoint questions_after (h : history) (chunks : list string) : list string :=
  match chunks with
  | [] => []
  | chunk :: chunks' =>
      contribution (port h (simple_prompt chunk))
      ++ questions_after (h ++ [simple_prompt chunk]) chunks'
  end.

(** The pairs that [generate_evolved_questions] derives from [qs] when it
    starts after the prompts of [h]. *)
Fixpoint evolved_after (h : history) (qs : list string)
  : list (string * list string) :=
  match qs with
  | [] => []
  | q :: qs' =>
      (q, evolutions_after h q) :: evolved_after (h ++ evolution_prompts q) qs'
  end.

(** The replies of the text model to the critic prompts of [cs], sent one
    after the other from [h]. *)
Fixpoint replies (h : history) (cs : list (string * string))
  : list (option string) :=
  match cs with
  | [] => []
  | c :: cs' =>
      port h (critic_prompt_of c) :: replies (h ++ [critic_prompt_of c]) cs'
  end.

End Traces.

(** The verdict recorded for a candidate, if its critic call was answered. *)
Definition recorded_true (cr : (string * string) * option string) : bool :=
  match snd cr with
  | Some r => verdict r
  | None => false
  end.

(** The candidates with a true verdict, in order. *)
Definition accepted_of (cs : list (string * string))
    (rs : list (option string)) : list string :=
  map (fun cr => snd (fst cr)) (filter recorded_true (combine cs rs)).

(** Every critic call of the list was answered with a string. *)
Definition answered (r : option string) : bool :=
  match r with
  | Some _ => true
  | None => false
  end.

Definition all_answered (rs : list (option string)) : bool :=
  forallb answered rs.

(** The two loops of [validate_evolved_questions] as one loop over the
    flattened list of candidates. *)
Definition validate_loop (port : history -> string -> option string)
    (cs : list (string * string)) (acc : list string) : M (list string) :=
  for_each
    (fun c valid =>
       is_valid <- critic port (fst c) (snd c) ;;
       if is_valid then ret (valid ++ [snd c]) else ret valid)
    cs acc.

(** The window number [k] of width [w] of a list: the elements number
    [k * w] to [k * w + w - 1]. *)
Definition window {A : Type} (w : nat) (l : list A) (k : nat) : list A :=
  firstn w (skipn (k * w) l).

(** [c] is the upper-case ASCII letter [u] or its lower-case form. *)
Definition same_letter (u c : ascii) : bool :=
  ((nat_of_ascii c =? nat_of_ascii u)
   || (nat_of_ascii c =? nat_of_ascii u + 32))%nat.

(** [s] is the upper-case ASCII word [word], letter by letter, in any mix
    of upper and lower case. *)
Fixpoint spells (word s : string) : bool :=
  match word, s with
  | EmptyString, EmptyString => true
  | String u word', String c s' => same_letter u c && spells word' s'
  | _, _ => false
  end.

(** A string that [strip] leaves as it is. *)
Definition stripped (s : string) : Prop := PyStr.strip s = s.

(** ** The fixture of the end-to-end scenario *)

Definition fixture_replies : list (string * string) :=
  [ (simple_prompt "Alpha beta", "Q1?");
    (simple_prompt "gamma delta", "Q2?");
    (complexity_prompt "Q1?", "C1?");
    (compression_prompt "Q1?", "Co1?");
    (rephrasing_prompt "Q1?", "R1?");
    (complexity_prompt "Q2?", "C2?");
    (compression_prompt "Q2?", "Co2?");
    (rephrasing_prompt "Q2?", "R2?");
    (critic_prompt "Q1?" "C1?", "INVALID");
    (critic_prompt "Q1?" "Co1?", "VALID");
    (critic_prompt "Q1?" "R1?", "VALID");
    (critic_prompt "Q2?" "C2?", "INVALID");
    (critic_prompt "Q2?" "Co2?", "VALID");
    (critic_prompt "Q2?" "R2?", "VALID") ].

Fixpoint lookup_reply (table : list (string * string)) (prompt : string)
  : option string :=
  match table with
  | [] => None
  | (p, r) :: table' =>
      if (p =? prompt)%string then Some r else lookup_reply table' prompt
  end.

Definition fixture_port : history -> string -> option string :=
  fun _ prompt => lookup_reply fixture_replies prompt.

(** A text model that fails on the calls number 3, 4 and 5 (from 0) and
    replies ["x"] to every other call. *)
Definition flaky_port : history -> string -> option string :=
  fun h _ =>
    if ((3 <=? length h) && (length h <=? 5))%nat then None else Some "x".

(** A text model that gives the replies of [script] to its calls, one
    after the other, and fails on every call after the last reply. *)
Definition scripted_port (script : list string)
  : history -> string -> option string :=
  fun h _ => nth_error script (length h).

(** ** The monad and the loops *)

Lemma bind_ok {A B : Type} (m : M A) (k : A -> M B) h a h' :
  m h = (Ok a, h') -> bind m k h = k a h'.
Proof. intros E. unfold bind. now rewrite E. Qed.

Lemma bind_raise {A B : Type} (m : M A) (k : A -> M B) h e h' :
  m h = (Raise e, h') -> bind m k h = (Raise e, h').
Proof. intros E. unfold bind. now rewrite E. Qed.

Lemma for_each_app {A S : Type} (body : A -> S -> M S) xs ys acc h :
  for_each body (xs ++ ys) acc h
  = bind (for_each body xs acc) (for_each body ys) h.
Proof.
  revert acc h. induction xs as [|x xs IH]; intros acc h; simpl.
  - reflexivity.
  - unfold bind in *.
    destruct (body x acc h) as [[a|e] h1]; [apply IH | reflexivity].
Qed.

(** Two nested loops over a list of pairs are one loop over the flattened
    list. *)
Lemma for_each_nested {S : Type} (body : string -> string -> S -> M S)
    (evolved : list (string * list string)) acc h :
  for_each (fun '(q, evolutions) a =>
              for_each (fun e a' => body q e a') evolutions a)
           evolved acc h
  = for_each (fun c a => body (fst c) (snd c) a) (candidates_of evolved) acc h.
Proof.
  revert acc h.
  induction evolved as [|[q evolutions] evolved IH]; intros acc h; simpl.
  - reflexivity.
  - rewrite for_each_app. unfold bind.
    assert (E : for_each (fun e a' => body q e a') evolutions acc h
                = for_each (fun c a => body (fst c) (snd c) a)
                           (map (pair q) evolutions) acc h).
    { clear IH. revert acc h.
      induction evolutions as [|e es IHe]; intros acc h; simpl; auto.
      unfold bind. destruct (body q e acc h) as [[a|x] h1]; auto. }
    rewrite E.
    destruct (for_each _ (map (pair q) evolutions) acc h) as [[a|x] h1];
      [apply IH | reflexivity].
Qed.

(** ** One call and its guarded append *)

Lemma evolve_with_spec port prompt evolutions h :
  evolve_with port prompt evolutions h
  = (Ok (evolutions ++ contribution (port h prompt)), h ++ [prompt]).
Proof.
  unfold evolve_with, bind, gpt, lift, ret, truthy, py_strip, contribution.
  destruct (port h prompt) as [[|c s]|]; simpl; now rewrite ?app_nil_r.
Qed.

Lemma apply_evolutions_spec port q h :
  apply_evolutions port q h
  = (Ok (evolutions_after port h q), h ++ evolution_prompts q).
Proof.
  unfold apply_evolutions.
  rewrite (bind_ok _ _ _ _ _ (evolve_with_spec _ _ _ _)).
  rewrite (bind_ok _ _ _ _ _ (evolve_with_spec _ _ _ _)).
  rewrite (bind_ok _ _ _ _ _ (evolve_with_spec _ _ _ _)).
  unfold ret, evolutions_after, evolution_prompts. simpl.
  now rewrite <- !app_assoc.
Qed.

Lemma contribution_length reply : (length (contribution reply) <= 1)%nat.
Proof. destruct reply as [[|c s]|]; simpl; lia. Qed.

(** ** Stripping *)




(** ** Question synthesis *)

Lemma simple_questions_loop port chunks acc h :
  for_each
    (fun chunk questions =>
       let prompt := simple_prompt chunk in
       question <- gpt port prompt ;;
       if truthy question
       then (s <- lift (py_strip question) ;; ret (questions ++ [s]))
       else ret questions)
    chunks acc h
  = (Ok (acc ++ questions_after port h chunks), h ++ map simple_prompt chunks).
Proof.
  revert acc h. induction chunks as [|chunk chunks IH]; intros acc h; simpl.
  - unfold ret. now rewrite !app_nil_r.
  - erewrite bind_ok; [|apply (evolve_with_spec port (simple_prompt chunk))].
    rewrite IH. now rewrite <- !app_assoc.
Qed.

Lemma generate_simple_questions_spec port chunks h :
  generate_simple_questions port chunks h
  = (Ok (questions_after port h chunks), h ++ map simple_prompt chunks).
Proof. unfold generate_simple_questions. now rewrite simple_questions_loop. Qed.



(** ** Evolution *)

(** C6.  For every question, [apply_evolutions] calls the text model three
    times, with the complexity, the compression and the rephrasing prompt in
    this order; its result is the concatenation of what each reply
    contributes, at most one candidate per policy and at most three in all;
    the contribution of a policy depends on the reply to its own call only,
    so a failed call leaves the slots of the other policies as they are. *)
Theorem apply_evolutions_policies port q h :
  let p1 := complexity_prompt q in
  let p2 := compression_prompt q in
  let p3 := rephrasing_prompt q in
  let c1 := contribution (port h p1) in
  let c2 := contribution (port (h ++ [p1]) p2) in
  let c3 := contribution (port (h ++ [p1; p2]) p3) in
  apply_evolutions port q h = (Ok (c1 ++ c2 ++ c3), h ++ [p1; p2; p3])
  /\ (length c1 <= 1 /\ length c2 <= 1 /\ length c3 <= 1)%nat
  /\ (length (c1 ++ c2 ++ c3) <= 3)%nat
  /\ contribution None = [].
Proof.
  intros p1 p2 p3 c1 c2 c3.
  split; [apply apply_evolutions_spec|].
  assert (L1 : (length c1 <= 1)%nat) by apply contribution_length.
  assert (L2 : (length c2 <= 1)%nat) by apply contribution_length.
  assert (L3 : (length c3 <= 1)%nat) by apply contribution_length.
  rewrite !length_app. repeat split; auto; lia.
Qed.

Lemma evolved_questions_loop port qs acc h :
  for_each
    (fun question all_evolved_questions =>
       evolved_questions <- apply_evolutions port question ;;
       ret (all_evolved_questions ++ [(question, evolved_questions)]))
    qs acc h
  = (Ok (acc ++ evolved_after port h qs), h ++ flat_map evolution_prompts qs).
Proof.
  revert acc h. induction qs as [|q qs IH]; intros acc h.
  - simpl. unfold ret. now rewrite !app_nil_r.
  - cbn [for_each].
    erewrite bind_ok.
    2:{ erewrite bind_ok; [|apply apply_evolutions_spec]. reflexivity. }
    rewrite IH. cbn [evolved_after flat_map]. now rewrite <- !app_assoc.
Qed.

Lemma generate_evolved_questions_spec port qs h :
  generate_evolved_questions port qs h
  = (Ok (evolved_after port h qs), h ++ flat_map evolution_prompts qs).
Proof. unfold generate_evolved_questions. now rewrite evolved_questions_loop. Qed.

Lemma evolved_after_fst port h qs : map fst (evolved_after port h qs) = qs.
Proof.
  revert h. induction qs as [|q qs IH]; intros h; simpl; auto.
  now rewrite IH.
Qed.

Lemma evolved_after_nth port h qs i q :
  nth_error qs i = Some q ->
  nth_error (evolved_after port h qs) i
  = Some (q, evolutions_after port
               (h ++ flat_map evolution_prompts (firstn i qs)) q).
Proof.
  revert h i. induction qs as [|q0 qs IH]; intros h [|i] H; simpl in *;
    try discriminate.
  - injection H as ->. now rewrite app_nil_r.
  - rewrite (IH _ _ H). now rewrite <- !app_assoc.
Qed.

(** C8.  [generate_evolved_questions] returns one pair per question, in the
    order of the questions.  The pair number [i] holds the question number
    [i] and the evolutions of that question: the list that
    [apply_evolutions] returns for it after the prompts of the questions
    before it.  A question whose three calls fail is kept, paired with the
    empty list. *)
Theorem generate_evolved_questions_keeps_questions port qs h :
  exists pairs,
    generate_evolved_questions port qs h
    = (Ok pairs, h ++ flat_map evolution_prompts qs)
    /\ map fst pairs = qs
    /\ length pairs = length qs
    /\ (forall i q,
          nth_error qs i = Some q ->
          let hi := h ++ flat_map evolution_prompts (firstn i qs) in
          exists evolutions,
            apply_evolutions port q hi
            = (Ok evolutions, hi ++ evolution_prompts q)
            /\ nth_error pairs i = Some (q, evolutions))
    /\ (forall i q,
          nth_error qs i = Some q ->
          let hi := h ++ flat_map evolution_prompts (firstn i qs) in
          port hi (complexity_prompt q) = None ->
          port (hi ++ [complexity_prompt q]) (compression_prompt q) = None ->
          port (hi ++ [complexity_prompt q; compression_prompt q])
               (rephrasing_prompt q) = None ->
          nth_error pairs i = Some (q, [])).
Proof.
  exists (evolved_after port h qs).
  split; [apply generate_evolved_questions_spec|].
  split; [apply evolved_after_fst|].
  split; [|split].
  - rewrite <- (evolved_after_fst port h qs) at 2. now rewrite length_map.
  - intros i q Hq hi. exists (evolutions_after port hi q).
    split; [apply apply_evolutions_spec|].
    exact (evolved_after_nth _ _ _ _ _ Hq).
  - intros i q Hq hi H1 H2 H3.
    rewrite (evolved_after_nth _ _ _ _ _ Hq). fold hi.
    unfold evolutions_after. now rewrite H1, H2, H3.
Qed.

Lemma generate_evolved_questions_keeps_questions_witness :
  exists pairs,
    generate_evolved_questions flaky_port ["a"; "b"; "c"] []
    = (Ok pairs, [] ++ flat_map evolution_prompts ["a"; "b"; "c"])
    /\ map fst pairs = ["a"; "b"; "c"]
    /\ nth_error pairs 0 = Some ("a", ["x"; "x"; "x"])
    /\ nth_error pairs 1 = Some ("b", [])
    /\ nth_error pairs 2 = Some ("c", ["x"; "x"; "x"]).
Proof.
  destruct (generate_evolved_questions_keeps_questions
              flaky_port ["a"; "b"; "c"] []) as (pairs & E & F & _ & A & K).
  exists pairs. split; [exact E|]. split; [exact F|].
  split; [|split].
  - destruct (A 0%nat "a" eq_refl) as (evolutions & Ea & Na).
    vm_compute in Ea. injection Ea as <-. exact Na.
  - apply (K 1%nat "b"); reflexivity.
  - destruct (A 2%nat "c" eq_refl) as (evolutions & Ec & Nc).
    vm_compute in Ec. injection Ec as <-. exact Nc.
Defined.

(** ** Criticism *)

Lemma critic_spec port o e h :
  critic port o e h
  = (match port h (critic_prompt o e) with
     | Some r => Ok (verdict r)
     | None => Raise AttributeError
     end, h ++ [critic_prompt o e]).
Proof.
  unfold critic, bind, gpt, lift, ret, py_strip, verdict.
  now destruct (port h (critic_prompt o e)).
Qed.

(** C1, as the code has it.  When the text model answers the critic prompt
    with a string, [critic] returns, and returns true exactly when the
    stripped, upper-cased reply is VALID: true for the replies valid, Valid
    followed by a space, and VALID; false for INVALID, the empty string and
    yes. *)
Theorem critic_string_reply port o e h r :
  port h (critic_prompt o e) = Some r ->
  exists b,
    critic port o e h = (Ok b, h ++ [critic_prompt o e])
    /\ (b = true <-> PyStr.upper (PyStr.strip r) = "VALID")
    /\ (In r ["valid"; "Valid "; "VALID"] -> b = true)
    /\ (In r ["INVALID"; ""; "yes"] -> b = false).
Proof.
  intros Hr. exists (verdict r). rewrite critic_spec, Hr.
  split; [reflexivity|]. split; [apply String.eqb_eq|].
  split; intros Hin; simpl in Hin;
    repeat (destruct Hin as [<-|Hin]; [reflexivity|]); contradiction.
Qed.

Lemma critic_string_reply_witness :
  exists b,
    critic (constant_port (Some "Valid ")) "q" "e" []
    = (Ok b, [] ++ [critic_prompt "q" "e"])
    /\ (b = true <-> PyStr.upper (PyStr.strip "Valid ") = "VALID")
    /\ (In "Valid " ["valid"; "Valid "; "VALID"] -> b = true)
    /\ (In "Valid " ["INVALID"; ""; "yes"] -> b = false).
Proof.
  apply (critic_string_reply (constant_port (Some "Valid ")) "q" "e" []
           "Valid ").
  reflexivity.
Defined.

(** C1, as the claim has it, fails: the replies valid and Valid followed by
    a space are accepted. *)
Lemma critic_accepts_lower_case :
  critic (constant_port (Some "valid")) "q" "e" []
  = (Ok true, [critic_prompt "q" "e"])
  /\ critic (constant_port (Some "Valid ")) "q" "e" []
     = (Ok true, [critic_prompt "q" "e"]).
Proof. split; reflexivity. Qed.

(** A failed critic call is not absorbed: [strip] is looked up on [None]. *)
Lemma critic_none_raises port o e h :
  port h (critic_prompt o e) = None ->
  critic port o e h = (Raise AttributeError, h ++ [critic_prompt o e]).
Proof. intros Hr. now rewrite critic_spec, Hr. Qed.

Lemma validate_first_none_raises port o e es rest h :
  port h (critic_prompt o e) = None ->
  validate_evolved_questions port ((o, e :: es) :: rest) h
  = (Raise AttributeError, h ++ [critic_prompt o e]).
Proof.
  intros Hr. unfold validate_evolved_questions. cbn [for_each].
  unfold bind. now rewrite (critic_none_raises _ _ _ _ Hr).
Qed.

(** C2 at a failing input.  The document has one chunk; the text model
    answers the calls 0, 1 and 2 and fails on the calls 3 to 5.  The failed
    rephrasing call (number 3) is absorbed, the failed critic call (number 4)
    ends the run with [AttributeError]. *)
Theorem criticism_propagates_failure :
  run_cells flaky_port "Alpha beta" 2 []
  = (Raise AttributeError,
     [simple_prompt "Alpha beta"; complexity_prompt "x";
      compression_prompt "x"; rephrasing_prompt "x"; critic_prompt "x" "x"]).
Proof. reflexivity. Qed.

(** C7 at a failing input.  The document has one chunk; the text model
    answers the question call, the three evolution calls and the first
    critic call, this one with VALID, and fails on the second critic call.
    The first candidate has a true verdict, so the accepted set of the claim
    holds it; the run raises [AttributeError] at the second critic call and
    returns no list: the accepted candidate is lost. *)
Theorem accepted_candidate_lost :
  let port := scripted_port ["Q?"; "C?"; "Co?"; "R?"; "VALID"] in
  let h := [simple_prompt "Alpha beta"; complexity_prompt "Q?";
            compression_prompt "Q?"; rephrasing_prompt "Q?"] in
  let cs := candidates_of [("Q?", ["C?"; "Co?"; "R?"])] in
  generate_evolved_questions port ["Q?"] [simple_prompt "Alpha beta"]
  = (Ok [("Q?", ["C?"; "Co?"; "R?"])], h)
  /\ critic port "Q?" "C?" h = (Ok true, h ++ [critic_prompt "Q?" "C?"])
  /\ accepted_of cs (replies port h cs) = ["C?"]
  /\ run_cells port "Alpha beta" 2 []
     = (Raise AttributeError,
        h ++ [critic_prompt "Q?" "C?"; critic_prompt "Q?" "Co?"]).
Proof. repeat split; vm_compute; reflexivity. Qed.

Lemma validate_as_loop port evolved h :
  validate_evolved_questions port evolved h
  = validate_loop port (candidates_of evolved) [] h.
Proof.
  unfold validate_evolved_questions, validate_loop.
  exact (for_each_nested
           (fun q e valid =>
              is_valid <- critic port q e ;;
              if is_valid then ret (valid ++ [e]) else ret valid)
           evolved [] h).
Qed.

Lemma validate_loop_answered port cs acc h :
  all_answered (replies port h cs) = true ->
  validate_loop port cs acc h
  = (Ok (acc ++ accepted_of cs (replies port h cs)),
     h ++ map critic_prompt_of cs).
Proof.
  revert acc h. induction cs as [|[q e] cs IH]; intros acc h Ha.
  - cbn. unfold ret. now rewrite !app_nil_r.
  - cbn [replies all_answered forallb] in Ha.
    apply andb_true_iff in Ha. destruct Ha as [Hr Ha].
    unfold validate_loop in *. cbn [for_each fst snd].
    unfold critic_prompt_of in *. cbn [fst snd] in *.
    destruct (port h (critic_prompt q e)) as [r|] eqn:Er; [|discriminate].
    unfold bind at 1. unfold bind at 1. rewrite critic_spec, Er.
    unfold accepted_of. cbn [replies combine filter]. unfold critic_prompt_of.
    cbn [fst snd]. rewrite Er. unfold recorded_true at 1. cbn [fst snd].
    destruct (verdict r); unfold ret; rewrite (IH _ _ Ha);
      unfold accepted_of; cbn [map fst snd]; now rewrite <- !app_assoc.
Qed.

Lemma validate_loop_ok port cs acc h out h' :
  validate_loop port cs acc h = (Ok out, h') ->
  all_answered (replies port h cs) = true.
Proof.
  revert acc h. induction cs as [|[q e] cs IH]; intros acc h E.
  - reflexivity.
  - unfold validate_loop in *. cbn [for_each fst snd] in E.
    cbn [replies all_answered forallb]. unfold critic_prompt_of. cbn [fst snd].
    unfold bind at 1 in E. unfold bind at 1 in E. rewrite critic_spec in E.
    destruct (port h (critic_prompt q e)) as [r|]; [|discriminate].
    cbn [answered andb].
    destruct (verdict r); unfold ret in E; exact (IH _ _ E).
Qed.

Lemma replies_length port h cs : length (replies port h cs) = length cs.
Proof. revert h. induction cs as [|c cs IH]; intros h; simpl; auto. Qed.

(** X19.  [validate_evolved_questions] returns exactly when every critic
    call is answered with a string.  Its result is then the list of the
    candidates whose critic reply reads as a true verdict, in the order of
    the argument (question by question, and in the order of the candidates
    of each question): one entry per candidate position with a true verdict,
    nothing else. *)
Theorem validate_evolved_questions_accepted port evolved h :
  let cs := candidates_of evolved in
  let rs := replies port h cs in
  length rs = length cs
  /\ (all_answered rs = true ->
      validate_evolved_questions port evolved h
      = (Ok (accepted_of cs rs), h ++ map critic_prompt_of cs))
  /\ (forall out h',
        validate_evolved_questions port evolved h = (Ok out, h') ->
        all_answered rs = true /\ out = accepted_of cs rs).
Proof.
  intros cs rs. split; [apply replies_length|]. split.
  - intros Ha. rewrite validate_as_loop.
    now rewrite (validate_loop_answered _ _ _ _ Ha).
  - intros out h' E. rewrite validate_as_loop in E.
    pose proof (validate_loop_ok _ _ _ _ _ _ E) as Ha. split; [exact Ha|].
    rewrite (validate_loop_answered _ _ _ _ Ha) in E. now injection E as <- _.
Qed.

(** X11.  The whole run, for a chunk size that [range] accepts, when every
    critic call is answered with a string: the stages compose, each one
    starting after the prompts of the stage before, and the run returns the
    candidates with a true verdict after one prompt per chunk, three per
    question and one per candidate. *)
Lemma run_cells_spec port doc chunk_size chunks h :
  chunk_document doc chunk_size = Ok chunks ->
  let qs := questions_after port h chunks in
  let h1 := h ++ map simple_prompt chunks in
  let pairs := evolved_after port h1 qs in
  let h2 := h1 ++ flat_map evolution_prompts qs in
  let cs := candidates_of pairs in
  let rs := replies port h2 cs in
  all_answered rs = true ->
  run_cells port doc chunk_size h
  = (Ok (accepted_of cs rs), h2 ++ map critic_prompt_of cs).
Proof.
  intros Hc qs h1 pairs h2 cs rs Ha. unfold run_cells.
  unfold bind at 1, lift. rewrite Hc.
  rewrite (bind_ok _ _ _ _ _ (generate_simple_questions_spec _ _ _)).
  rewrite (bind_ok _ _ _ _ _ (generate_evolved_questions_spec _ _ _)).
  rewrite validate_as_loop. now apply validate_loop_answered.
Qed.

Lemma validate_evolved_questions_accepted_witness :
  validate_evolved_questions fixture_port
    [("Q1?", ["C1?"; "Co1?"; "R1?"]); ("Q2?", ["C2?"; "Co2?"; "R2?"])] []
  = (Ok ["Co1?"; "R1?"; "Co2?"; "R2?"],
     map critic_prompt_of
       [("Q1?", "C1?"); ("Q1?", "Co1?"); ("Q1?", "R1?");
        ("Q2?", "C2?"); ("Q2?", "Co2?"); ("Q2?", "R2?")]).
Proof.
  apply (proj1 (proj2 (validate_evolved_questions_accepted fixture_port
    [("Q1?", ["C1?"; "Co1?"; "R1?"]); ("Q2?", ["C2?"; "Co2?"; "R2?"])] []))).
  reflexivity.
Defined.

(** ** Chunk sizes that are not positive *)

Lemma chunk_document_zero doc : chunk_document doc 0 = Raise ValueError.
Proof. reflexivity. Qed.

(** C10.  For a negative chunk size the range is empty: [chunk_document]
    returns the empty list and raises nothing. *)
Theorem chunk_document_negative doc chunk_size :
  (chunk_size < 0)%Z -> chunk_document doc chunk_size = Ok [].
Proof.
  intros Hneg. unfold chunk_document, range, PyList.range_len.
  destruct (Z.eqb_spec chunk_size 0) as [E|_]; [lia|].
  destruct (Z.ltb_spec 0 chunk_size) as [E|_]; [lia|].
  destruct (Z.ltb_spec (Z.of_nat (length (PyStr.split doc))) 0) as [E|_];
    [lia|].
  reflexivity.
Qed.

Lemma chunk_document_negative_witness :
  chunk_document "Alpha beta gamma delta" (-2) = Ok [].
Proof.
  apply (chunk_document_negative "Alpha beta gamma delta" (-2)). reflexivity.
Defined.

(** C4, as the code has it.  With a chunk size that is not positive the
    run sends no prompt to the text model.  With chunk size zero it ends
    with the [ValueError] of [range]; with a negative chunk size it raises
    nothing and returns the empty list. *)
Theorem run_cells_nonpositive_chunk_size port doc chunk_size h :
  (chunk_size <= 0)%Z ->
  run_cells port doc chunk_size h
  = (if (chunk_size =? 0)%Z then Raise ValueError else Ok [], h).
Proof.
  intros Hle. unfold run_cells.
  destruct (Z.eqb_spec chunk_size 0) as [->|Hne].
  - reflexivity.
  - unfold bind at 1, lift.
    rewrite chunk_document_negative by lia. reflexivity.
Qed.

Lemma run_cells_nonpositive_chunk_size_witness :
  run_cells fixture_port "Alpha beta gamma delta" 0 []
  = (Raise ValueError, []).
Proof.
  apply (run_cells_nonpositive_chunk_size
           fixture_port "Alpha beta gamma delta" 0 []).
  lia.
Defined.

(** C4, as the claim has it, fails: a negative chunk size raises nothing. *)
Lemma run_cells_negative_chunk_size_returns :
  run_cells fixture_port "Alpha beta gamma delta" (-1) [] = (Ok [], []).
Proof. reflexivity. Qed.

(** ** The end-to-end scenario *)

(** C5.  On the document of four words with chunk size 2 the chunks are
    the two pairs of words, and the run with the fixture returns the
    compression and rephrasing outputs of the two questions, in order. *)
Theorem end_to_end_scenario :
  chunk_document "Alpha beta gamma delta" 2 = Ok ["Alpha beta"; "gamma delta"]
  /\ run_cells fixture_port "Alpha beta gamma delta" 2 []
     = (Ok ["Co1?"; "R1?"; "Co2?"; "R2?"], map fst fixture_replies).
Proof. split; vm_compute; reflexivity. Qed.

(** ** Words: [split] and [join] *)

Section Words.

Import PyStr.

Lemma str_app_nil_r (s : string) : (s ++ "")%string = s.
Proof. induction s as [|c s IH]; simpl; congruence. Qed.

Lemma str_app_assoc (a b c : string) :
  ((a ++ b) ++ c)%string = (a ++ (b ++ c))%string.
Proof. induction a as [|x a IH]; simpl; congruence. Qed.

Lemma nonempty_true (s : string) : nonempty s = true <-> s <> "".
Proof. destruct s; simpl; split; congruence. Qed.

Lemma nonempty_app_r (a b : string) :
  nonempty b = true -> nonempty (a ++ b)%string = true.
Proof. destruct a; simpl; auto. Qed.

Lemma no_space_nil : no_space "".
Proof. intros c []. Qed.

Lemma no_space_cons c w :
  no_space (String c w) <-> isspace c = false /\ no_space w.
Proof.
  unfold no_space. simpl. split.
  - intros H. split; [apply H; now left|]. intros d Hd. apply H. now right.
  - intros [Hc Hw] d [<-|Hd]; auto.
Qed.

Lemma no_space_app a b :
  no_space a -> no_space b -> no_space (a ++ b)%string.
Proof.
  induction a as [|c a IH]; simpl; auto.
  intros Ha Hb. apply no_space_cons in Ha. destruct Ha as [Hc Ha].
  apply no_space_cons. auto.
Qed.

(** Reading a run of characters that are not white space extends the
    current word. *)
Lemma split_from_word cur w s :
  no_space w ->
  split_from cur (w ++ s)%string = split_from (cur ++ w)%string s.
Proof.
  revert cur. induction w as [|c w IH]; intros cur Hw; simpl.
  - now rewrite str_app_nil_r.
  - apply no_space_cons in Hw. destruct Hw as [Hc Hw].
    rewrite Hc, (IH _ Hw), str_app_assoc. reflexivity.
Qed.

(** Every element of the result of [split] is a word. *)
Lemma split_from_words cur s :
  no_space cur -> Forall is_word (split_from cur s).
Proof.
  revert cur. induction s as [|c s IH]; intros cur Hcur; simpl.
  - destruct (nonempty cur) eqn:E; constructor; auto.
    split; [now apply nonempty_true | assumption].
  - destruct (isspace c) eqn:Ec.
    + destruct (nonempty cur) eqn:E.
      * constructor; [|apply IH, no_space_nil].
        split; [now apply nonempty_true | assumption].
      * apply IH, no_space_nil.
    + apply IH. apply no_space_app; auto.
      apply no_space_cons. split; [assumption | apply no_space_nil].
Qed.

Lemma split_words s : Forall is_word (split s).
Proof. apply split_from_words, no_space_nil. Qed.

(** Splitting what [join] made of words gives the words back. *)
Lemma split_join ws : Forall is_word ws -> split (join " " ws) = ws.
Proof.
  unfold split. induction ws as [|w ws IH]; intros Hws.
  - reflexivity.
  - inversion Hws as [|? ? [Hne Hw] Hws']; subst.
    apply nonempty_true in Hne.
    destruct ws as [|w' ws].
    + cbn [join]. rewrite <- (str_app_nil_r w) at 1.
      rewrite (split_from_word _ _ _ Hw). simpl. now rewrite Hne.
    + change (join " " (w :: w' :: ws))
        with (w ++ String " "%char (join " " (w' :: ws)))%string.
      rewrite (split_from_word _ _ _ Hw). cbn [append split_from].
      change (isspace " "%char) with true. cbv iota.
      rewrite Hne. f_equal. now apply IH.
Qed.

Lemma join_app sep xs ys :
  xs <> [] -> ys <> [] ->
  join sep (xs ++ ys) = (join sep xs ++ sep ++ join sep ys)%string.
Proof.
  induction xs as [|x xs IH]; intros Hx Hy; [congruence|].
  destruct xs as [|x' xs].
  - destruct ys as [|y ys]; [congruence|]. reflexivity.
  - change (join sep ((x :: x' :: xs) ++ ys))
      with (x ++ sep ++ join sep ((x' :: xs) ++ ys))%string.
    rewrite IH by congruence.
    change (join sep (x :: x' :: xs))
      with (x ++ sep ++ join sep (x' :: xs))%string.
    now rewrite !str_app_assoc.
Qed.

(** Joining the joined groups is joining all the words, when no group is
    empty. *)
Lemma join_groups sep (groups : list (list string)) :
  Forall (fun g => g <> []) groups ->
  join sep (map (join sep) groups) = join sep (concat groups).
Proof.
  induction groups as [|g groups IH]; intros Hg; [reflexivity|].
  inversion Hg as [|? ? Hne Hg']; subst.
  destruct groups as [|g' groups].
  - simpl. now rewrite app_nil_r.
  - change (join sep (map (join sep) (g :: g' :: groups)))
      with (join sep g ++ sep
            ++ join sep (map (join sep) (g' :: groups)))%string.
    rewrite (IH Hg').
    change (concat (g :: g' :: groups)) with (g ++ concat (g' :: groups)).
    rewrite join_app; auto.
    inversion Hg' as [|? ? Hne' _]; subst. simpl.
    destruct g'; [congruence | discriminate].
Qed.

End Words.

(** ** Windows of a list *)

Lemma clamp_of_nat len a : PyList.clamp len (Z.of_nat a) = Nat.min a len.
Proof.
  unfold PyList.clamp.
  destruct (Z.ltb_spec (Z.of_nat a) 0) as [H|_]; lia.
Qed.

Lemma slice_window {A : Type} (l : list A) (w k : nat) :
  PyList.slice l (0 + Z.of_nat k * Z.of_nat w)
                 (0 + Z.of_nat k * Z.of_nat w + Z.of_nat w)
  = window w l k.
Proof.
  unfold PyList.slice, window.
  replace (0 + Z.of_nat k * Z.of_nat w)%Z with (Z.of_nat (k * w)) by lia.
  replace (Z.of_nat (k * w) + Z.of_nat w)%Z with (Z.of_nat (k * w + w)) by lia.
  rewrite !clamp_of_nat.
  destruct (Nat.le_gt_cases (length l) (k * w)) as [Hge|Hlt].
  - rewrite !Nat.min_r by lia. rewrite skipn_all, (skipn_all2 (n := k * w)) by lia.
    now rewrite !firstn_nil.
  - rewrite (Nat.min_l (k * w)) by lia.
    rewrite <- (firstn_all (skipn (k * w) l)) at 2.
    rewrite firstn_firstn, length_skipn. f_equal. lia.
Qed.

Lemma firstn_add {A : Type} (a b : nat) (l : list A) :
  firstn (a + b) l = firstn a l ++ firstn b (skipn a l).
Proof.
  revert l. induction a as [|a IH]; intros l; simpl; auto.
  destruct l as [|x l]; simpl.
  - now rewrite firstn_nil.
  - now rewrite IH.
Qed.

Lemma concat_windows {A : Type} (w : nat) (l : list A) (c : nat) :
  concat (map (window w l) (seq 0 c)) = firstn (c * w) l.
Proof.
  induction c as [|c IH]; [reflexivity|].
  rewrite seq_S, map_app, concat_app, IH. simpl.
  rewrite app_nil_r. unfold window.
  replace (w + c * w)%nat with (c * w + w)%nat by lia.
  now rewrite firstn_add.
Qed.

Lemma window_length {A : Type} (w : nat) (l : list A) (k : nat) :
  length (window w l k) = Nat.min w (length l - k * w).
Proof. unfold window. now rewrite length_firstn, length_skipn. Qed.

Lemma window_Forall {A : Type} (P : A -> Prop) (w : nat) (l : list A) k :
  Forall P l -> Forall P (window w l k).
Proof.
  intros H. unfold window. rewrite Forall_forall in *. intros x Hx.
  apply H. rewrite <- (firstn_skipn (k * w) l). apply in_or_app. right.
  rewrite <- (firstn_skipn w (skipn (k * w) l)). apply in_or_app. now left.
Qed.

(** ** Rounding up *)

Lemma ceil_div_spec n w :
  (0 < w)%Z ->
  ((ceil_div n w - 1) * w < n <= ceil_div n w * w)%Z.
Proof.
  intros Hw. unfold ceil_div.
  pose proof (Z.div_mod (n + w - 1) w ltac:(lia)) as E.
  pose proof (Z.mod_pos_bound (n + w - 1) w Hw) as B.
  nia.
Qed.

Lemma ceil_div_unique n w q :
  (0 < w)%Z -> ((q - 1) * w < n <= q * w)%Z -> q = ceil_div n w.
Proof.
  intros Hw Hq. pose proof (ceil_div_spec n w Hw) as Hc. nia.
Qed.

Lemma range_len_ceil_div n w :
  (0 < w)%Z ->
  Z.of_nat (PyList.range_len 0 (Z.of_nat n) w) = ceil_div (Z.of_nat n) w.
Proof.
  intros Hw. apply ceil_div_unique; [assumption|].
  unfold PyList.range_len.
  destruct (Z.ltb_spec 0 w) as [_|H]; [|lia].
  destruct (Z.ltb_spec 0 (Z.of_nat n)) as [Hn|Hn].
  - pose proof (Z.div_mod (Z.of_nat n - 0 - 1) w ltac:(lia)) as E.
    pose proof (Z.mod_pos_bound (Z.of_nat n - 0 - 1) w Hw) as B.
    assert (0 <= (Z.of_nat n - 0 - 1) / w)%Z by (apply Z.div_pos; lia).
    rewrite Z2Nat.id by lia. nia.
  - change (Z.of_nat 0) with 0%Z. lia.
Qed.

(** ** Chunking with a positive chunk size *)

(** With a positive chunk size the chunks are the joined windows of the
    words, as many as the rounded-up quotient. *)
Lemma chunk_document_windows doc chunk_size :
  (0 < chunk_size)%Z ->
  let words := PyStr.split doc in
  chunk_document doc chunk_size
  = Ok (map (fun k => PyStr.join " " (window (Z.to_nat chunk_size) words k))
            (seq 0 (Z.to_nat
                      (ceil_div (Z.of_nat (length words)) chunk_size)))).
Proof.
  intros Hpos words. unfold chunk_document, range. fold words.
  destruct (Z.eqb_spec chunk_size 0) as [E|_]; [lia|].
  cbn [rbind]. rewrite map_map.
  rewrite <- (range_len_ceil_div _ _ Hpos), Nat2Z.id.
  f_equal. apply map_ext. intros k. f_equal.
  rewrite <- (Z2Nat.id chunk_size) at 1 2 3 by lia.
  apply slice_window.
Qed.

Lemma nth_error_map_seq {B : Type} (f : nat -> B) c i y :
  nth_error (map f (seq 0 c)) i = Some y -> (i < c)%nat /\ y = f i.
Proof.
  rewrite nth_error_map, nth_error_seq.
  destruct (Nat.ltb_spec i c); simpl; [|discriminate].
  intros E. injection E as <-. auto.
Qed.

(** C3.  For a positive chunk size, [chunk_document] returns chunks such
    that: joined by spaces they are the words of the document joined by
    spaces; split again, chunk after chunk, they give the words of the
    document; their number is the word count divided by the chunk size,
    rounded up; every chunk but the last has exactly [chunk_size] words and
    the last has between one and [chunk_size]; and the empty document has no
    chunk. *)
Theorem chunk_document_covers doc chunk_size :
  (0 < chunk_size)%Z ->
  exists chunks,
    chunk_document doc chunk_size = Ok chunks
    /\ PyStr.join " " chunks = PyStr.join " " (PyStr.split doc)
    /\ concat (map PyStr.split chunks) = PyStr.split doc
    /\ Z.of_nat (length chunks)
       = ceil_div (Z.of_nat (length (PyStr.split doc))) chunk_size
    /\ (forall i chunk,
          nth_error chunks i = Some chunk ->
          (i + 1 < length chunks)%nat ->
          Z.of_nat (length (PyStr.split chunk)) = chunk_size)
    /\ (forall chunk,
          nth_error chunks (length chunks - 1) = Some chunk ->
          (1 <= Z.of_nat (length (PyStr.split chunk)) <= chunk_size)%Z)
    /\ chunk_document "" chunk_size = Ok [].
Proof.
  intros Hpos.
  pose proof (chunk_document_windows doc chunk_size Hpos) as Hdoc.
  pose proof (chunk_document_windows "" chunk_size Hpos) as Hempty.
  cbv zeta in Hdoc, Hempty.
  set (words := PyStr.split doc) in *.
  set (w := Z.to_nat chunk_size) in *.
  set (c := Z.to_nat (ceil_div (Z.of_nat (length words)) chunk_size)) in *.
  pose proof (ceil_div_spec (Z.of_nat (length words)) chunk_size Hpos) as Hc.
  assert (Hw : chunk_size = Z.of_nat w) by (subst w; lia).
  assert (Hcz : ceil_div (Z.of_nat (length words)) chunk_size = Z.of_nat c)
    by (subst c; nia).
  rewrite Hcz in Hc.
  assert (Hcover : (length words <= c * w)%nat) by nia.
  assert (Hlast : forall k, (k < c)%nat -> (k * w < length words)%nat)
    by (intros k Hk; nia).
  assert (Hfull : forall k, (k + 1 < c)%nat ->
                            (k * w + w <= length words)%nat)
    by (intros k Hk; nia).
  assert (Hwords : Forall PyStr.is_word words) by apply split_words.
  exists (map (fun k => PyStr.join " " (window w words k)) (seq 0 c)).
  split; [exact Hdoc|].
  assert (Hsplit : forall k,
             PyStr.split (PyStr.join " " (window w words k))
             = window w words k)
    by (intros k; apply split_join, window_Forall, Hwords).
  repeat split.
  - rewrite <- (map_map (window w words) (PyStr.join " ")).
    rewrite join_groups.
    + now rewrite concat_windows, firstn_all2.
    + apply Forall_forall. intros g Hg. apply in_map_iff in Hg.
      destruct Hg as (k & <- & Hk). apply in_seq in Hk.
      intros E. apply (f_equal (@length _)) in E.
      rewrite window_length in E. simpl in E.
      pose proof (Hlast k ltac:(lia)). lia.
  - rewrite map_map. rewrite (map_ext _ (window w words) Hsplit).
    now rewrite concat_windows, firstn_all2.
  - rewrite length_map, length_seq. now rewrite Hcz.
  - intros i chunk Hi Hlt. rewrite length_map, length_seq in Hlt.
    apply nth_error_map_seq in Hi. destruct Hi as [_ ->].
    rewrite Hsplit, window_length. pose proof (Hfull i Hlt). lia.
  - rewrite length_map, length_seq in H.
    apply nth_error_map_seq in H. destruct H as [Hk ->].
    rewrite Hsplit, window_length. pose proof (Hlast _ Hk). lia.
  - rewrite length_map, length_seq in H.
    apply nth_error_map_seq in H. destruct H as [Hk ->].
    rewrite Hsplit, window_length. lia.
  - rewrite Hempty.
    change (Z.of_nat (length (PyStr.split ""))) with 0%Z.
    now rewrite <- (ceil_div_unique 0 chunk_size 0 Hpos ltac:(lia)).
Qed.

Lemma chunk_document_covers_witness :
  exists chunks,
    chunk_document "  Alpha beta  gamma delta epsilon " 2 = Ok chunks
    /\ PyStr.join " " chunks = "Alpha beta gamma delta epsilon"
    /\ length chunks = 3%nat.
Proof.
  destruct (chunk_document_covers "  Alpha beta  gamma delta epsilon " 2)
    as (chunks & E & J & _ & L & _); [reflexivity|].
  exists chunks. split; [exact E|]. split; [exact J|].
  apply Nat2Z.inj. exact L.
Defined.

(** ** Further properties of question synthesis *)

Lemma questions_after_length port h chunks :
  (length (questions_after port h chunks) <= length chunks)%nat.
Proof.
  revert h. induction chunks as [|chunk chunks IH]; intros h; simpl; auto.
  rewrite length_app.
  pose proof (contribution_length (port h (simple_prompt chunk))).
  specialize (IH (h ++ [simple_prompt chunk])). lia.
Qed.

(** X1.  [generate_simple_questions] never raises, whatever the text model
    replies: it sends one prompt per chunk, in the order of the chunks, and
    returns at most one question per chunk. *)
Theorem generate_simple_questions_never_raises port chunks h :
  exists qs,
    generate_simple_questions port chunks h
    = (Ok qs, h ++ map simple_prompt chunks)
    /\ (length qs <= length chunks)%nat.
Proof.
  exists (questions_after port h chunks).
  split; [apply generate_simple_questions_spec | apply questions_after_length].
Qed.

(** X2.  A chunk whose call fails, or is answered with the empty string, is
    dropped after its one call: the questions are those of the remaining
    chunks, asked after that call. *)
Theorem generate_simple_questions_drops_failed_chunk port chunk chunks h :
  port h (simple_prompt chunk) = None
  \/ port h (simple_prompt chunk) = Some "" ->
  generate_simple_questions port (chunk :: chunks) h
  = generate_simple_questions port chunks (h ++ [simple_prompt chunk]).
Proof.
  intros Hr. rewrite !generate_simple_questions_spec. simpl.
  destruct Hr as [-> | ->]; simpl; now rewrite <- app_assoc.
Qed.

Lemma generate_simple_questions_drops_failed_chunk_witness :
  generate_simple_questions flaky_port ["d"; "e"] ["a"; "b"; "c"]
  = generate_simple_questions flaky_port ["e"]
      (["a"; "b"; "c"] ++ [simple_prompt "d"]).
Proof.
  apply (generate_simple_questions_drops_failed_chunk
           flaky_port "d" ["e"] ["a"; "b"; "c"]).
  left. reflexivity.
Defined.

(** X3.  A chunk whose call is answered with a string that is not empty
    contributes the stripped reply, ahead of the questions of the remaining
    chunks. *)
Theorem generate_simple_questions_keeps_answered_chunk
    port chunk chunks h r :
  port h (simple_prompt chunk) = Some r ->
  r <> "" ->
  exists rest h',
    generate_simple_questions port chunks (h ++ [simple_prompt chunk])
    = (Ok rest, h')
    /\ generate_simple_questions port (chunk :: chunks) h
       = (Ok (PyStr.strip r :: rest), h').
Proof.
  intros Hr Hne.
  exists (questions_after port (h ++ [simple_prompt chunk]) chunks),
         ((h ++ [simple_prompt chunk]) ++ map simple_prompt chunks).
  split; [apply generate_simple_questions_spec|].
  rewrite generate_simple_questions_spec. simpl. rewrite Hr.
  destruct r as [|c r]; [congruence|]. simpl. now rewrite <- app_assoc.
Qed.

Lemma generate_simple_questions_keeps_answered_chunk_witness :
  exists rest h',
    generate_simple_questions (constant_port (Some " Why? ")) ["b"]
      ([] ++ [simple_prompt "a"]) = (Ok rest, h')
    /\ generate_simple_questions (constant_port (Some " Why? ")) ["a"; "b"] []
       = (Ok (PyStr.strip " Why? " :: rest), h').
Proof.
  apply (generate_simple_questions_keeps_answered_chunk
           (constant_port (Some " Why? ")) "a" ["b"] [] " Why? ").
  - reflexivity.
  - discriminate.
Defined.

(** ** Stripped strings *)

Lemma rstrip_idempotent s : PyStr.rstrip (PyStr.rstrip s) = PyStr.rstrip s.
Proof.
  induction s as [|c s IH]; [reflexivity|].
  cbn [PyStr.rstrip].
  destruct (PyStr.isspace c && negb (PyStr.nonempty (PyStr.rstrip s)))
    eqn:E; [reflexivity|].
  cbn [PyStr.rstrip]. now rewrite IH, E.
Qed.

Lemma lstrip_head s :
  PyStr.lstrip s = ""
  \/ exists c t, PyStr.lstrip s = String c t /\ PyStr.isspace c = false.
Proof.
  induction s as [|c s IH]; simpl; [now left|].
  destruct (PyStr.isspace c) eqn:E; [exact IH|]. right. eauto.
Qed.

Lemma strip_idempotent s : PyStr.strip (PyStr.strip s) = PyStr.strip s.
Proof.
  unfold PyStr.strip.
  destruct (lstrip_head s) as [-> | (c & t & -> & Hc)]; [reflexivity|].
  cbn [PyStr.rstrip]. rewrite Hc. cbn [andb PyStr.lstrip]. rewrite Hc.
  cbn [PyStr.rstrip]. now rewrite Hc, rstrip_idempotent.
Qed.

Lemma contribution_stripped reply : Forall stripped (contribution reply).
Proof.
  destruct reply as [[|c s]|]; simpl; constructor; auto.
  apply strip_idempotent.
Qed.

Lemma questions_after_stripped port h chunks :
  Forall stripped (questions_after port h chunks).
Proof.
  revert h. induction chunks as [|chunk chunks IH]; intros h; simpl.
  - constructor.
  - apply Forall_app. split; [apply contribution_stripped | apply IH].
Qed.

Lemma evolutions_after_stripped port h q :
  Forall stripped (evolutions_after port h q).
Proof.
  unfold evolutions_after.
  repeat (apply Forall_app; split); apply contribution_stripped.
Qed.

(** X4.  Every question that [generate_simple_questions] returns is
    stripped: it has no white space at either end. *)
Theorem generate_simple_questions_stripped port chunks h :
  exists qs h',
    generate_simple_questions port chunks h = (Ok qs, h')
    /\ Forall stripped qs.
Proof.
  eexists. eexists.
  split; [apply generate_simple_questions_spec|].
  apply questions_after_stripped.
Qed.

(** ** Further properties of evolution *)

(** X5.  Every candidate that [apply_evolutions] returns is stripped. *)
Theorem apply_evolutions_stripped port q h :
  exists evolutions h',
    apply_evolutions port q h = (Ok evolutions, h')
    /\ Forall stripped evolutions.
Proof.
  eexists. eexists.
  split; [apply apply_evolutions_spec | apply evolutions_after_stripped].
Qed.

Lemma contribution_full reply :
  length (contribution reply) = 1%nat <-> truthy reply = true.
Proof. destruct reply as [[|c s]|]; simpl; split; congruence. Qed.

(** X6.  [apply_evolutions] returns three candidates exactly when each of
    its three calls is answered with a string that is not empty; the
    candidates are then the three stripped replies, in the order complexity,
    compression, rephrasing. *)
Theorem apply_evolutions_three_candidates port q h :
  let p1 := complexity_prompt q in
  let p2 := compression_prompt q in
  let p3 := rephrasing_prompt q in
  let r1 := port h p1 in
  let r2 := port (h ++ [p1]) p2 in
  let r3 := port (h ++ [p1; p2]) p3 in
  exists evolutions,
    apply_evolutions port q h = (Ok evolutions, h ++ [p1; p2; p3])
    /\ (length evolutions = 3%nat
        <-> truthy r1 = true /\ truthy r2 = true /\ truthy r3 = true)
    /\ (forall s1 s2 s3,
          r1 = Some s1 -> r2 = Some s2 -> r3 = Some s3 ->
          s1 <> "" -> s2 <> "" -> s3 <> "" ->
          evolutions = [PyStr.strip s1; PyStr.strip s2; PyStr.strip s3]).
Proof.
  intros p1 p2 p3 r1 r2 r3. exists (evolutions_after port h q).
  split; [apply apply_evolutions_spec|].
  unfold evolutions_after. fold p1 p2 p3 r1 r2 r3. split.
  - rewrite !length_app, <- !contribution_full.
    pose proof (contribution_length r1).
    pose proof (contribution_length r2).
    pose proof (contribution_length r3). lia.
  - intros s1 s2 s3 -> -> -> H1 H2 H3.
    destruct s1; [congruence|]. destruct s2; [congruence|].
    destruct s3; [congruence|]. reflexivity.
Qed.

Lemma apply_evolutions_three_candidates_witness :
  exists evolutions,
    apply_evolutions fixture_port "Q1?" []
    = (Ok evolutions, [] ++ evolution_prompts "Q1?")
    /\ length evolutions = 3%nat
    /\ evolutions = [PyStr.strip "C1?"; PyStr.strip "Co1?"; PyStr.strip "R1?"].
Proof.
  destruct (apply_evolutions_three_candidates fixture_port "Q1?" [])
    as (evolutions & E & L & K).
  exists evolutions. split; [exact E|]. split.
  - apply L. repeat split; reflexivity.
  - apply K; solve [reflexivity | discriminate].
Defined.

(** ** Further properties of criticism *)

Lemma upper_char_letter c u t rest :
  In u (list_ascii_of_string "VALID") ->
  (PyStr.upper_char c ++ t)%string = String u rest
  <-> same_letter u c = true /\ t = rest.
Proof.
  intros Hu. simpl in Hu.
  destruct Hu as [<-|[<-|[<-|[<-|[<-|[]]]]]];
    destruct c as [[] [] [] [] [] [] [] []];
    (split;
     [ intros E; vm_compute in E; inversion E; subst; split; reflexivity
     | intros [E1 E2]; vm_compute in E1; try discriminate E1; subst;
       reflexivity ]).
Qed.

Lemma upper_char_not_empty c t : (PyStr.upper_char c ++ t)%string <> "".
Proof.
  unfold PyStr.upper_char.
  repeat match goal with |- context [if ?b then _ else _] => destruct b end;
    discriminate.
Qed.

Lemma upper_spells s : PyStr.upper s = "VALID" <-> spells "VALID" s = true.
Proof.
  assert (Hnil : forall t, PyStr.upper t = "" <-> spells "" t = true).
  { intros [|c t]; simpl; split; try congruence.
    intros E. now apply upper_char_not_empty in E. }
  assert (Hstep : forall u word,
             In u (list_ascii_of_string "VALID") ->
             (forall t, PyStr.upper t = word <-> spells word t = true) ->
             forall t, PyStr.upper t = String u word
                       <-> spells (String u word) t = true).
  { intros u word Hu IH [|c t]; cbn [PyStr.upper spells].
    - split; discriminate.
    - rewrite (upper_char_letter c u _ _ Hu), andb_true_iff.
      now rewrite IH. }
  repeat (apply Hstep; [simpl; tauto|]). exact Hnil.
Qed.

Lemma verdict_spells r : verdict r = spells "VALID" (PyStr.strip r).
Proof.
  unfold verdict. apply eq_true_iff_eq.
  rewrite String.eqb_eq. apply upper_spells.
Qed.

(** X7.  When its call is answered with a string, [critic] accepts exactly
    the replies that, stripped, are the five letters of VALID in any mix of
    upper and lower case; a reply with anything else beside white space
    around these letters, such as a final full stop, is rejected. *)
Theorem critic_accepts_spellings port o e h r :
  port h (critic_prompt o e) = Some r ->
  critic port o e h
  = (Ok (spells "VALID" (PyStr.strip r)), h ++ [critic_prompt o e]).
Proof. intros Hr. now rewrite critic_spec, Hr, verdict_spells. Qed.

Lemma critic_accepts_spellings_witness :
  critic (constant_port (Some " vAlId ")) "q" "e" []
  = (Ok true, [critic_prompt "q" "e"])
  /\ critic (constant_port (Some "VALID.")) "q" "e" []
     = (Ok false, [critic_prompt "q" "e"]).
Proof.
  split.
  - apply (critic_accepts_spellings
             (constant_port (Some " vAlId ")) "q" "e" [] " vAlId ").
    reflexivity.
  - apply (critic_accepts_spellings
             (constant_port (Some "VALID.")) "q" "e" [] "VALID.").
    reflexivity.
Defined.

(** ** Further properties of validation *)

Lemma validate_loop_stops port cs acc h k :
  nth_error (replies port h cs) k = Some None ->
  all_answered (firstn k (replies port h cs)) = true ->
  validate_loop port cs acc h
  = (Raise AttributeError, h ++ map critic_prompt_of (firstn (S k) cs)).
Proof.
  revert acc h k. induction cs as [|[q e] cs IH]; intros acc h k Hk Ha.
  - destruct k; discriminate.
  - unfold validate_loop in *. cbn [for_each fst snd].
    cbn [replies] in Hk, Ha. unfold critic_prompt_of in Hk, Ha.
    cbn [fst snd] in Hk, Ha.
    unfold bind at 1. unfold bind at 1. rewrite critic_spec.
    destruct k as [|k].
    + cbn [nth_error] in Hk. injection Hk as ->. reflexivity.
    + cbn [nth_error] in Hk. cbn [firstn all_answered forallb] in Ha.
      apply andb_true_iff in Ha. destruct Ha as [Hr Ha].
      destruct (port h (critic_prompt q e)) as [r|]; [|discriminate].
      assert (E : forall acc',
                 for_each
                   (fun c valid =>
                      is_valid <- critic port (fst c) (snd c) ;;
                      if is_valid then ret (valid ++ [snd c]) else ret valid)
                   cs acc' (h ++ [critic_prompt q e])
                 = (Raise AttributeError,
                    h ++ map critic_prompt_of (firstn (S (S k)) ((q, e) :: cs)))).
      { intros acc'. rewrite (IH acc' _ k Hk Ha).
        cbn [firstn map]. unfold critic_prompt_of at 3. cbn [fst snd].
        now rewrite <- app_assoc. }
      destruct (verdict r); unfold ret; apply E.
Qed.

(** X8.  [validate_evolved_questions] stops at the first critic call that
    fails: it raises [AttributeError] right after that call, sends no
    further prompt, and the candidates accepted until then are lost. *)
Theorem validate_evolved_questions_stops_at_failure port evolved h k :
  let cs := candidates_of evolved in
  let rs := replies port h cs in
  nth_error rs k = Some None ->
  all_answered (firstn k rs) = true ->
  validate_evolved_questions port evolved h
  = (Raise AttributeError, h ++ map critic_prompt_of (firstn (S k) cs)).
Proof.
  intros cs rs Hk Ha. rewrite validate_as_loop.
  now apply validate_loop_stops.
Qed.

Lemma validate_evolved_questions_stops_at_failure_witness :
  validate_evolved_questions flaky_port
    [("a", ["a1"; "a2"]); ("b", ["b1"; "b2"; "b3"])] []
  = (Raise AttributeError,
     [] ++ map critic_prompt_of [("a", "a1"); ("a", "a2"); ("b", "b1");
                                 ("b", "b2")]).
Proof.
  apply (validate_evolved_questions_stops_at_failure flaky_port
           [("a", ["a1"; "a2"]); ("b", ["b1"; "b2"; "b3"])] [] 3);
    reflexivity.
Defined.

Lemma accepted_of_in cs rs x :
  In x (accepted_of cs rs) -> exists q, In (q, x) cs.
Proof.
  unfold accepted_of. intros Hx. apply in_map_iff in Hx.
  destruct Hx as ([[q e] r] & <- & Hin). apply filter_In in Hin.
  destruct Hin as [Hin _]. apply in_combine_l in Hin. now exists q.
Qed.

Lemma accepted_of_length cs rs :
  (length (accepted_of cs rs) <= length cs)%nat.
Proof.
  unfold accepted_of. rewrite length_map.
  pose proof (filter_length_le recorded_true (combine cs rs)) as H.
  rewrite length_combine in H. lia.
Qed.

Lemma candidates_of_in evolved q x :
  In (q, x) (candidates_of evolved) ->
  exists evolutions, In (q, evolutions) evolved /\ In x evolutions.
Proof.
  unfold candidates_of. intros H. apply in_flat_map in H.
  destruct H as ([q' evolutions] & Hin & Hx). apply in_map_iff in Hx.
  destruct Hx as (x' & E & Hx'). injection E as -> ->. eauto.
Qed.

(** X9.  When [validate_evolved_questions] returns, it has sent one critic
    prompt per candidate, and its result invents nothing: every element is a
    candidate of some question of the argument, and there are at most as
    many elements as candidates. *)
Theorem validate_evolved_questions_selects port evolved h out h' :
  validate_evolved_questions port evolved h = (Ok out, h') ->
  h' = h ++ map critic_prompt_of (candidates_of evolved)
  /\ (length out <= length (candidates_of evolved))%nat
  /\ forall x, In x out ->
       exists q evolutions, In (q, evolutions) evolved /\ In x evolutions.
Proof.
  intros E. rewrite validate_as_loop in E.
  pose proof (validate_loop_ok _ _ _ _ _ _ E) as Ha.
  rewrite (validate_loop_answered _ _ _ _ Ha) in E.
  injection E as <- <-. split; [reflexivity|]. split.
  - apply accepted_of_length.
  - intros x Hx. apply accepted_of_in in Hx. destruct Hx as [q Hq].
    exists q. now apply candidates_of_in.
Qed.

Lemma validate_evolved_questions_selects_witness :
  [critic_prompt "q" "a"; critic_prompt "q" "b"]
  = [] ++ map critic_prompt_of (candidates_of [("q", ["a"; "b"])])
  /\ (length ["a"; "b"] <= length (candidates_of [("q", ["a"; "b"])]))%nat
  /\ forall x, In x ["a"; "b"] ->
       exists q evolutions,
         In (q, evolutions) [("q", ["a"; "b"])] /\ In x evolutions.
Proof.
  apply (validate_evolved_questions_selects
           (constant_port (Some "VALID")) [("q", ["a"; "b"])] []).
  reflexivity.
Defined.

Lemma replies_constant r h cs :
  replies (constant_port r) h cs = map (fun _ => r) cs.
Proof.
  revert h. induction cs as [|c cs IH]; intros h; simpl; [reflexivity|].
  now rewrite IH.
Qed.

Lemma accepted_of_constant r cs :
  accepted_of cs (map (fun _ => Some r) cs)
  = if verdict r then map snd cs else [].
Proof.
  unfold accepted_of. induction cs as [|c cs IH]; simpl.
  - now destruct (verdict r).
  - unfold recorded_true at 1. cbn [fst snd].
    destruct (verdict r); simpl; now rewrite IH.
Qed.

Lemma candidates_of_snd evolved :
  map snd (candidates_of evolved) = concat (map snd evolved).
Proof.
  unfold candidates_of.
  induction evolved as [|[q evolutions] evolved IH]; simpl; [reflexivity|].
  rewrite map_app, IH, map_map. simpl. now rewrite map_id.
Qed.

(** X10.  With a text model that gives every critic prompt the same string
    reply, [validate_evolved_questions] returns every candidate, in order,
    if the reply reads as VALID, and no candidate otherwise. *)
Theorem validate_evolved_questions_constant_reply r evolved h :
  validate_evolved_questions (constant_port (Some r)) evolved h
  = (Ok (if (PyStr.upper (PyStr.strip r) =? "VALID")%string
         then concat (map snd evolved) else []),
     h ++ map critic_prompt_of (candidates_of evolved)).
Proof.
  rewrite validate_as_loop, validate_loop_answered.
  - rewrite replies_constant, accepted_of_constant, candidates_of_snd.
    reflexivity.
  - rewrite replies_constant. unfold all_answered.
    rewrite forallb_forall. intros x Hx. apply in_map_iff in Hx.
    now destruct Hx as (_ & <- & _).
Qed.

(** ** Further properties of the whole run *)

Lemma run_cells_spec_witness :
  run_cells fixture_port "Alpha beta gamma delta" 2 []
  = (Ok ["Co1?"; "R1?"; "Co2?"; "R2?"], map fst fixture_replies).
Proof.
  apply (run_cells_spec fixture_port "Alpha beta gamma delta" 2
           ["Alpha beta"; "gamma delta"] []);
    reflexivity.
Defined.

Lemma first_unanswered rs :
  all_answered rs = false ->
  exists k, nth_error rs k = Some None
            /\ all_answered (firstn k rs) = true.
Proof.
  induction rs as [|[r|] rs IH]; intros H.
  - discriminate.
  - destruct (IH H) as (k & Hk & Ha). exists (S k). auto.
  - exists 0%nat. auto.
Qed.

Lemma validate_loop_outcome port cs h :
  exists r sent,
    validate_loop port cs [] h = (r, h ++ sent)
    /\ (length sent <= length cs)%nat
    /\ (r = Raise AttributeError
        \/ exists out, r = Ok out /\ (length out <= length cs)%nat).
Proof.
  destruct (all_answered (replies port h cs)) eqn:Ha.
  - eexists. eexists. split; [apply (validate_loop_answered _ _ _ _ Ha)|].
    rewrite length_map. split; [lia|]. right. eexists. split; [reflexivity|].
    apply accepted_of_length.
  - destruct (first_unanswered _ Ha) as (k & Hk & Hbefore).
    eexists. eexists.
    split; [apply (validate_loop_stops _ _ _ _ _ Hk Hbefore)|].
    rewrite length_map. split; [|now left].
    rewrite length_firstn. assert (k < length cs)%nat; [|lia].
    rewrite <- (replies_length port h cs). apply nth_error_Some. congruence.
Qed.

Lemma evolutions_after_length port h q :
  (length (evolutions_after port h q) <= 3)%nat.
Proof.
  unfold evolutions_after. rewrite !length_app.
  pose proof (contribution_length (port h (complexity_prompt q))).
  pose proof (contribution_length
                (port (h ++ [complexity_prompt q]) (compression_prompt q))).
  pose proof (contribution_length
                (port (h ++ [complexity_prompt q; compression_prompt q])
                      (rephrasing_prompt q))).
  lia.
Qed.

Lemma candidates_of_evolved_after_length port h qs :
  (length (candidates_of (evolved_after port h qs)) <= 3 * length qs)%nat.
Proof.
  revert h. induction qs as [|q qs IH]; intros h; [simpl; lia|].
  cbn [evolved_after candidates_of flat_map]. rewrite length_app, length_map.
  pose proof (evolutions_after_length port h q).
  specialize (IH (h ++ evolution_prompts q)).
  unfold candidates_of in IH. cbn [length]. lia.
Qed.

Lemma evolution_prompts_length qs :
  length (flat_map evolution_prompts qs) = (3 * length qs)%nat.
Proof. induction qs as [|q qs IH]; simpl; lia. Qed.

(** X12.  For every positive chunk size and whatever the text model does,
    a run sends at most seven prompts per chunk (one for the question, three
    for the evolutions, three for the verdicts), only appends to the
    history, either returns or raises [AttributeError], and returns at most
    three accepted candidates per chunk. *)
Theorem run_cells_bounds port doc chunk_size h :
  (0 < chunk_size)%Z ->
  exists chunks sent r,
    chunk_document doc chunk_size = Ok chunks
    /\ run_cells port doc chunk_size h = (r, h ++ sent)
    /\ (length sent <= 7 * length chunks)%nat
    /\ (r = Raise AttributeError
        \/ exists out, r = Ok out /\ (length out <= 3 * length chunks)%nat).
Proof.
  intros Hpos.
  pose proof (chunk_document_windows doc chunk_size Hpos) as Hc.
  cbv zeta in Hc. revert Hc.
  generalize (map (fun k => PyStr.join " "
                     (window (Z.to_nat chunk_size) (PyStr.split doc) k))
                  (seq 0 (Z.to_nat
                     (ceil_div (Z.of_nat (length (PyStr.split doc)))
                               chunk_size)))).
  intros chunks Hc.
  set (qs := questions_after port h chunks).
  set (h1 := h ++ map simple_prompt chunks).
  set (pairs := evolved_after port h1 qs).
  set (h2 := h1 ++ flat_map evolution_prompts qs).
  destruct (validate_loop_outcome port (candidates_of pairs) h2)
    as (r & sent & E & Hsent & Hr).
  pose proof (questions_after_length port h chunks) as Hqs. fold qs in Hqs.
  pose proof (candidates_of_evolved_after_length port h1 qs) as Hcs.
  fold pairs in Hcs.
  exists chunks,
    (map simple_prompt chunks ++ flat_map evolution_prompts qs ++ sent), r.
  split; [exact Hc|]. split; [|split].
  - unfold run_cells. unfold bind at 1, lift. rewrite Hc.
    rewrite (bind_ok _ _ _ _ _ (generate_simple_questions_spec _ _ _)).
    rewrite (bind_ok _ _ _ _ _ (generate_evolved_questions_spec _ _ _)).
    rewrite validate_as_loop. fold qs h1 pairs h2. rewrite E.
    unfold h2, h1. now rewrite <- !app_assoc.
  - rewrite !length_app, length_map, evolution_prompts_length. lia.
  - destruct Hr as [-> | (out & -> & Hout)]; [now left|].
    right. exists out. split; [reflexivity | lia].
Qed.

Lemma run_cells_bounds_witness :
  exists chunks sent r,
    chunk_document "a b c" 2 = Ok chunks
    /\ run_cells flaky_port "a b c" 2 [] = (r, [] ++ sent)
    /\ (length sent <= 7 * length chunks)%nat
    /\ (r = Raise AttributeError
        \/ exists out, r = Ok out /\ (length out <= 3 * length chunks)%nat).
Proof. apply (run_cells_bounds flaky_port "a b c" 2 []). reflexivity. Defined.

Lemma questions_after_failing h chunks :
  questions_after failing_port h chunks = [].
Proof.
  revert h. induction chunks as [|chunk chunks IH]; intros h; simpl; auto.
Qed.

(** X13.  When every call of the text model fails, a run with a positive
    chunk size raises nothing: it sends the one prompt of each chunk, gets no
    question, sends no evolution or critic prompt and returns the empty
    list. *)
Theorem run_cells_total_outage doc chunk_size h :
  (0 < chunk_size)%Z ->
  exists chunks,
    chunk_document doc chunk_size = Ok chunks
    /\ run_cells failing_port doc chunk_size h
       = (Ok [], h ++ map simple_prompt chunks).
Proof.
  intros Hpos. eexists. split; [apply (chunk_document_windows _ _ Hpos)|].
  unfold run_cells. unfold bind at 1, lift.
  rewrite (chunk_document_windows _ _ Hpos).
  rewrite (bind_ok _ _ _ _ _ (generate_simple_questions_spec _ _ _)).
  rewrite questions_after_failing. reflexivity.
Qed.

Lemma run_cells_total_outage_witness :
  exists chunks,
    chunk_document "Alpha beta gamma delta" 2 = Ok chunks
    /\ run_cells failing_port "Alpha beta gamma delta" 2 []
       = (Ok [], [] ++ map simple_prompt chunks).
Proof.
  apply (run_cells_total_outage "Alpha beta gamma delta" 2 []). reflexivity.
Defined.

(** ** Further properties of chunking *)

Lemma chunk_document_same_words d1 d2 chunk_size :
  PyStr.split d1 = PyStr.split d2 ->
  chunk_document d1 chunk_size = chunk_document d2 chunk_size.
Proof. unfold chunk_document. now intros ->. Qed.

(** The shape of the result for a positive chunk size: [c] joined windows
    that cover the words, none of them empty. *)
Lemma chunk_document_shape doc chunk_size :
  (0 < chunk_size)%Z ->
  let words := PyStr.split doc in
  let w := Z.to_nat chunk_size in
  exists c,
    chunk_document doc chunk_size
    = Ok (map (fun k => PyStr.join " " (window w words k)) (seq 0 c))
    /\ (length words <= c * w)%nat
    /\ (forall k, (k < c)%nat -> window w words k <> []).
Proof.
  intros Hpos words w.
  exists (Z.to_nat (ceil_div (Z.of_nat (length words)) chunk_size)).
  split; [apply (chunk_document_windows doc chunk_size Hpos)|].
  pose proof (ceil_div_spec (Z.of_nat (length words)) chunk_size Hpos) as Hc.
  set (c := Z.to_nat (ceil_div (Z.of_nat (length words)) chunk_size)).
  assert (Hw : chunk_size = Z.of_nat w) by (subst w; lia).
  assert (Hcz : ceil_div (Z.of_nat (length words)) chunk_size = Z.of_nat c)
    by (subst c; nia).
  rewrite Hcz in Hc. split; [nia|].
  intros k Hk E. apply (f_equal (@length _)) in E.
  rewrite window_length in E. simpl in E.
  assert (k * w < length words)%nat by nia. lia.
Qed.

Lemma join_windows (words : list string) w c :
  (length words <= c * w)%nat ->
  (forall k, (k < c)%nat -> window w words k <> []) ->
  PyStr.join " " (map (fun k => PyStr.join " " (window w words k)) (seq 0 c))
  = PyStr.join " " words.
Proof.
  intros Hcover Hne.
  rewrite <- (map_map (window w words) (PyStr.join " ")).
  rewrite join_groups.
  - now rewrite concat_windows, firstn_all2.
  - apply Forall_forall. intros g Hg. apply in_map_iff in Hg.
    destruct Hg as (k & <- & Hk). apply in_seq in Hk. apply Hne. lia.
Qed.

(** X14.  Chunking is stable: for a positive chunk size, the chunks of a
    document joined by spaces form a document that has the same chunks. *)
Theorem chunk_document_rechunk doc chunk_size :
  (0 < chunk_size)%Z ->
  exists chunks,
    chunk_document doc chunk_size = Ok chunks
    /\ chunk_document (PyStr.join " " chunks) chunk_size = Ok chunks.
Proof.
  intros Hpos.
  destruct (chunk_document_shape doc chunk_size Hpos) as (c & E & Hc & Hne).
  eexists. split; [exact E|].
  rewrite <- E. apply chunk_document_same_words.
  rewrite (join_windows _ _ _ Hc Hne).
  apply split_join, split_words.
Qed.

Lemma chunk_document_rechunk_witness :
  exists chunks,
    chunk_document "  Alpha beta  gamma " 2 = Ok chunks
    /\ chunk_document (PyStr.join " " chunks) 2 = Ok chunks.
Proof. apply (chunk_document_rechunk "  Alpha beta  gamma " 2). reflexivity. Defined.

(** X15.  A document that has at least one word and at most [chunk_size]
    words is one chunk: its words joined by single spaces. *)
Theorem chunk_document_single_chunk doc chunk_size :
  PyStr.split doc <> [] ->
  (Z.of_nat (length (PyStr.split doc)) <= chunk_size)%Z ->
  chunk_document doc chunk_size = Ok [PyStr.join " " (PyStr.split doc)].
Proof.
  intros Hne Hle.
  assert (Hlen : (0 < length (PyStr.split doc))%nat)
    by (destruct (PyStr.split doc); [congruence | simpl; lia]).
  assert (Hpos : (0 < chunk_size)%Z) by lia.
  rewrite (chunk_document_windows doc chunk_size Hpos).
  rewrite <- (ceil_div_unique (Z.of_nat (length (PyStr.split doc)))
                chunk_size 1 Hpos) by lia.
  change (Z.to_nat 1) with 1%nat. cbn [seq map]. unfold window.
  cbn [Nat.mul skipn]. rewrite firstn_all2 by lia. reflexivity.
Qed.

Lemma chunk_document_single_chunk_witness :
  chunk_document " Alpha  beta gamma " default_chunk_size
  = Ok ["Alpha beta gamma"].
Proof.
  apply (chunk_document_single_chunk " Alpha  beta gamma "
           default_chunk_size).
  - discriminate.
  - vm_compute. discriminate.
Defined.

Lemma join_words_nonempty g :
  g <> [] -> Forall PyStr.is_word g -> PyStr.join " " g <> "".
Proof.
  intros Hne Hg. destruct g as [|x g]; [congruence|].
  inversion Hg as [|? ? [Hx _] _]; subst.
  destruct x as [|a x]; [congruence|].
  destruct g; discriminate.
Qed.

(** X16.  For a positive chunk size no chunk is empty, and every chunk is
    normalised: its words joined by single spaces, with no other white
    space. *)
Theorem chunk_document_normalised doc chunk_size :
  (0 < chunk_size)%Z ->
  exists chunks,
    chunk_document doc chunk_size = Ok chunks
    /\ Forall (fun chunk =>
                 chunk <> ""
                 /\ PyStr.join " " (PyStr.split chunk) = chunk) chunks.
Proof.
  intros Hpos.
  destruct (chunk_document_shape doc chunk_size Hpos) as (c & E & _ & Hne).
  eexists. split; [exact E|].
  apply Forall_forall. intros chunk Hin. apply in_map_iff in Hin.
  destruct Hin as (k & <- & Hk). apply in_seq in Hk.
  assert (Hw : Forall PyStr.is_word
                 (window (Z.to_nat chunk_size) (PyStr.split doc) k))
    by apply window_Forall, split_words.
  split.
  - apply join_words_nonempty; [apply Hne; lia | exact Hw].
  - now rewrite (split_join _ Hw).
Qed.

Lemma chunk_document_normalised_witness :
  exists chunks,
    chunk_document "  Alpha beta  gamma " 2 = Ok chunks
    /\ Forall (fun chunk =>
                 chunk <> ""
                 /\ PyStr.join " " (PyStr.split chunk) = chunk) chunks.
Proof.
  apply (chunk_document_normalised "  Alpha beta  gamma " 2). reflexivity.
Defined.

(** ** The prompts *)

Lemma str_app_inv_head (p a b : string) :
  (p ++ a)%string = (p ++ b)%string -> a = b.
Proof.
  induction p as [|c p IH]; simpl; intros E; [exact E|].
  injection E as E. auto.
Qed.

(** X17.  A prompt tells its kind and, for the question and evolution
    prompts, its argument: two prompts of different kinds are different
    whatever their arguments, and two question prompts, or two evolution
    prompts of one policy, are equal only for equal arguments.  A text model
    can therefore answer by kind of prompt. *)
Theorem prompts_distinguishable a b c d :
  (simple_prompt a = simple_prompt b -> a = b)
  /\ (complexity_prompt a = complexity_prompt b -> a = b)
  /\ (compression_prompt a = compression_prompt b -> a = b)
  /\ (rephrasing_prompt a = rephrasing_prompt b -> a = b)
  /\ simple_prompt a <> complexity_prompt b
  /\ simple_prompt a <> compression_prompt b
  /\ simple_prompt a <> rephrasing_prompt b
  /\ complexity_prompt a <> compression_prompt b
  /\ complexity_prompt a <> rephrasing_prompt b
  /\ compression_prompt a <> rephrasing_prompt b
  /\ critic_prompt c d <> simple_prompt a
  /\ critic_prompt c d <> complexity_prompt a
  /\ critic_prompt c d <> compression_prompt a
  /\ critic_prompt c d <> rephrasing_prompt a.
Proof.
  unfold simple_prompt, complexity_prompt, compression_prompt,
    rephrasing_prompt, critic_prompt.
  repeat split;
    try (intros E; repeat apply str_app_inv_head in E; exact E);
    intros E; vm_compute in E; discriminate E.
Qed.

Lemma prompts_distinguishable_witness :
  simple_prompt "Alpha beta" <> simple_prompt "gamma delta".
Proof.
  intros E.
  apply (proj1 (prompts_distinguishable "Alpha beta" "gamma delta" "" "")) in E.
  discriminate E.
Defined.

(** ** Batches of questions *)

Lemma evolved_after_app port h qs1 qs2 :
  evolved_after port h (qs1 ++ qs2)
  = evolved_after port h qs1
    ++ evolved_after port (h ++ flat_map evolution_prompts qs1) qs2.
Proof.
  revert h. induction qs1 as [|q qs1 IH]; intros h.
  - simpl. now rewrite app_nil_r.
  - cbn [app evolved_after flat_map]. rewrite IH.
    now rewrite <- !app_assoc.
Qed.

(** X18.  [generate_evolved_questions] works through its argument in one
    pass: on two lists put end to end it returns the pairs of the first list
    followed by the pairs that the second list gives when it is processed
    right after the first. *)
Theorem generate_evolved_questions_app port qs1 qs2 h pairs1 h1 pairs2 h2 :
  generate_evolved_questions port qs1 h = (Ok pairs1, h1) ->
  generate_evolved_questions port qs2 h1 = (Ok pairs2, h2) ->
  generate_evolved_questions port (qs1 ++ qs2) h = (Ok (pairs1 ++ pairs2), h2).
Proof.
  rewrite !generate_evolved_questions_spec.
  intros E1 E2. injection E1 as <- <-. injection E2 as <- <-.
  now rewrite evolved_after_app, flat_map_app, <- app_assoc.
Qed.

Lemma generate_evolved_questions_app_witness :
  generate_evolved_questions flaky_port (["a"] ++ ["b"]) []
  = (Ok ([("a", ["x"; "x"; "x"])] ++ [("b", [])]),
     evolution_prompts "a" ++ evolution_prompts "b").
Proof.
  apply (generate_evolved_questions_app flaky_port ["a"] ["b"] []
           [("a", ["x"; "x"; "x"])] (evolution_prompts "a")
           [("b", [])] (evolution_prompts "a" ++ evolution_prompts "b"));
    reflexivity.
Defined.
